(** * Markdown encoding fixer: [scripts/fix_markdown_encoding.py]

    A shallow embedding of the script and the properties of its rule
    engine.  The script reads every Markdown file below [docs], applies an
    ordered table of (pattern, replacement, description) rules with
    [re.findall] / [re.sub], and writes the file back when its text
    changed.

    Layout:
    - [Text]    Python [str] values as lists of code points;
    - [Re]      the fragment of Python's [re] that the rule table uses;
    - [Fs]      files on storage and a small monad for I/O, printing and
                exceptions;
    - the rule table [REPLACEMENTS], [fix_file], the loop of [main],
      [sorted] and [main];
    - the properties. *)

From stdpp Require Import base option list strings gmap pretty sorting.
From Stdlib Require Import NArith Lia.

Local Open Scope string_scope.
Local Open Scope list_scope.

(** ** Text *)

Module Text.

(** A Python [str] is a sequence of Unicode code points. *)
Definition char := N.
Definition text := list char.

(** The string literals of the script are plain ASCII. *)
Definition of_string (s : string) : text :=
  List.map Ascii.N_of_ascii (String.list_ascii_of_string s).

(** The code point of a one-character literal. *)
Definition ch (s : string) : char :=
  match s with
  | String a _ => Ascii.N_of_ascii a
  | EmptyString => 0%N
  end.

(** [content != original_content] compares [content == original_content]. *)
Fixpoint eqb (a b : text) : bool :=
  match a, b with
  | [], [] => true
  | x :: a', y :: b' => N.eqb x y && eqb a' b'
  | _, _ => false
  end.

(** U+FEFF, which the [utf-8-sig] codec writes in front of the text. *)
Definition BOM : char := 65279%N.

End Text.

Import Text.

(** ** The fragment of [re] used by the rule table

    Every pattern of the table is a concatenation of
    - literal characters, written plain or escaped ([\?], [\*], [\|]),
    - [\s*], a greedy repetition of the whitespace class,
    - one look-behind [(?<=\|)] and one look-ahead [(?=\|)] on a single
      character.
    [compile] parses exactly this fragment and rejects everything else. *)

Module Re.

(** A one-character matcher. *)
Inductive cls :=
| Chr (c : char)      (* this character *)
| Space.              (* \s *)

Inductive atom :=
| One (k : cls)       (* k        *)
| Star (k : cls)      (* k*  (greedy) *)
| Behind (k : cls)    (* (?<=k)   *)
| Ahead (k : cls).    (* (?=k)    *)

Definition regex := list atom.

(** [\s] on [str] patterns is [Py_UNICODE_ISSPACE]. *)
Definition is_space (c : char) : bool :=
  ((9 <=? c) && (c <=? 13) || (28 <=? c) && (c <=? 32)
   || (c =? 133) || (c =? 160) || (c =? 5760)
   || (8192 <=? c) && (c <=? 8202)
   || (c =? 8232) || (c =? 8233) || (c =? 8239) || (c =? 8287)
   || (c =? 12288))%N.

Definition in_cls (k : cls) (c : char) : bool :=
  match k with
  | Chr d => N.eqb c d
  | Space => is_space c
  end.

(** *** Parsing a pattern string *)

Inductive token :=
| TCls (k : cls)
| TStar
| TBehind             (* "(?<=" *)
| TAhead              (* "(?="  *)
| TClose.             (* ")"    *)

Definition is_alnum (c : char) : bool :=
  ((48 <=? c) && (c <=? 57) || (65 <=? c) && (c <=? 90)
   || (97 <=? c) && (c <=? 122))%N.

(** Characters with a meaning of their own when not escaped. *)
Definition is_special (c : char) : bool :=
  existsb (N.eqb c) (of_string ".^$*+?{}[]\|()").

Definition cons_tok (t : token) (r : option (list token)) :=
  match r with Some l => Some (t :: l) | None => None end.

Fixpoint tokenize (s : text) : option (list token) :=
  match s with
  | [] => Some []
  | c :: s1 =>
      if N.eqb c (ch "\") then
        match s1 with
        | d :: s2 =>
            if N.eqb d (ch "s") then cons_tok (TCls Space) (tokenize s2)
            else if is_alnum d then None
            else cons_tok (TCls (Chr d)) (tokenize s2)
        | [] => None
        end
      else if N.eqb c (ch "*") then cons_tok TStar (tokenize s1)
      else if N.eqb c (ch ")") then cons_tok TClose (tokenize s1)
      else if N.eqb c (ch "(") then
        match s1 with
        | q :: e :: s3 =>
            if N.eqb q (ch "?") then
              if N.eqb e (ch "=") then cons_tok TAhead (tokenize s3)
              else if N.eqb e (ch "<") then
                match s3 with
                | e' :: s4 =>
                    if N.eqb e' (ch "=") then cons_tok TBehind (tokenize s4)
                    else None
                | [] => None
                end
              else None
            else None
        | _ => None
        end
      else if is_special c then None
      else cons_tok (TCls (Chr c)) (tokenize s1)
  end.

Definition cons_atom (a : atom) (r : option regex) :=
  match r with Some l => Some (a :: l) | None => None end.

Fixpoint parse (ts : list token) : option regex :=
  match ts with
  | [] => Some []
  | TCls k :: TStar :: ts' => cons_atom (Star k) (parse ts')
  | TCls k :: ts' => cons_atom (One k) (parse ts')
  | TBehind :: TCls k :: TClose :: ts' => cons_atom (Behind k) (parse ts')
  | TAhead :: TCls k :: TClose :: ts' => cons_atom (Ahead k) (parse ts')
  | _ => None
  end.

Definition compile (pattern : string) : option regex :=
  match tokenize (of_string pattern) with
  | Some ts => parse ts
  | None => None
  end.

(** *** Matching

    The subject is held as a zipper: [before] is the text to the left of
    the current position, nearest character first, [after] the text from
    the position on.  [match_here r adv before after] is the text matched
    by [r] at the position, [None] when there is no match.  The
    repetition is greedy and backtracks; with [adv] (sre's
    [must_advance]) an empty match is refused. *)

Definition cons_char (c : char) (r : option text) : option text :=
  match r with Some m => Some (c :: m) | None => None end.

Fixpoint match_here (r : regex) (adv : bool) (before after : text)
  {struct r} : option text :=
  match r with
  | [] => if adv then None else Some []
  | One k :: r' =>
      match after with
      | c :: after' =>
          if in_cls k c
          then cons_char c (match_here r' false (c :: before) after')
          else None
      | [] => None
      end
  | Star k :: r' =>
      (fix star (adv : bool) (before after : text) {struct after}
         : option text :=
         match after with
         | c :: after' =>
             if in_cls k c then
               match star false (c :: before) after' with
               | Some m => Some (c :: m)
               | None => match_here r' adv before after
               end
             else match_here r' adv before after
         | [] => match_here r' adv before after
         end) adv before after
  | Behind k :: r' =>
      match before with
      | c :: _ => if in_cls k c then match_here r' adv before after else None
      | [] => None
      end
  | Ahead k :: r' =>
      match after with
      | c :: _ => if in_cls k c then match_here r' adv before after else None
      | [] => None
      end
  end.

(** *** Scanning: the loop shared by [findall] and [sub]

    Both functions run the same loop in [_sre]: search for the leftmost
    match from the current position, handle it, and go on from its end;
    after an empty match the next one must advance.  [finditer] cuts
    the subject into the characters left alone and the matches found.
    [skip] counts the characters of the current match that are still to
    be stepped over. *)

Inductive piece :=
| Keep (c : char)
| Hit (m : text).

Fixpoint finditer (r : regex) (skip : nat) (before after : text)
  {struct after} : list piece :=
  match skip with
  | S k =>
      match after with
      | c :: after' => finditer r k (c :: before) after'
      | [] => []
      end
  | O =>
      let keep :=
        match after with
        | c :: after' => Keep c :: finditer r 0 (c :: before) after'
        | [] => []
        end in
      let jump (m : text) :=
        Hit m ::
        match after with
        | c :: after' => finditer r (length m - 1) (c :: before) after'
        | [] => []
        end in
      match match_here r false before after with
      | Some [] =>
          Hit [] ::
          match match_here r true before after with
          | Some m => jump m
          | None => keep
          end
      | Some m => jump m
      | None => keep
      end
  end.

(** [re.findall(pattern, string)] for a pattern without groups: the
    list of the matched texts. *)
Definition hits (ps : list piece) : list text :=
  omap (fun p => match p with Hit m => Some m | Keep _ => None end) ps.

Definition findall (r : regex) (s : text) : list text :=
  hits (finditer r 0 [] s).

(** [re.sub(pattern, repl, string)] for a template [repl] without
    backslashes: every match is replaced by [repl] as it stands. *)
Definition rebuild (repl : text) (ps : list piece) : text :=
  List.concat
    (List.map (fun p => match p with Hit _ => repl | Keep c => [c] end) ps).

Definition sub (r : regex) (repl s : text) : text :=
  rebuild repl (finditer r 0 [] s).

(** A replacement template is literal when it has no backslash. *)
Definition template (repl : string) : option text :=
  let t := of_string repl in
  if existsb (N.eqb (ch "\")) t then None else Some t.

End Re.

(** ** Storage, printing and exceptions *)

Module Fs.

(** The exceptions the script can meet; all derive from [Exception]. *)
Inductive exn :=
| OSError (msg : string)              (* open / read / write failed *)
| UnicodeDecodeError (msg : string).  (* the bytes are not UTF-8 *)

(** [str(e)] *)
Definition message (e : exn) : string :=
  match e with
  | OSError msg => msg
  | UnicodeDecodeError msg => msg
  end.

Inductive outcome (A : Type) :=
| Ok (a : A)
| Raise (e : exn).
Arguments Ok {A} a.
Arguments Raise {A} e.

(** A file as the script sees it: [read_as] is what
    [open(p, 'r', encoding='utf-8')] followed by [f.read()] yields, the
    decoded text or the exception raised; [write_err] is the exception
    that [open(p, 'w', ...)] raises, if the file cannot be written.  A
    text that was read holds no carriage return, so a text written is
    read back as it is, after the byte-order mark. *)
Record file := File { read_as : outcome text; write_err : option exn }.

(** Paths are the keys; a path without entry names no file. *)
Abbreviation storage := (gmap string file).

(** What running a piece of the script gives: the storage afterwards,
    the lines printed, and the value returned or the exception raised. *)
Record run (A : Type) :=
  Run { fs_after : storage; stdout : list string; returned : outcome A }.
Arguments Run {A} fs_after stdout returned.
Arguments fs_after {A} r.
Arguments stdout {A} r.
Arguments returned {A} r.

Definition IO (A : Type) := storage → run A.

Definition ret {A} (a : A) : IO A := fun fs => Run fs [] (Ok a).

Definition raise {A} (e : exn) : IO A := fun fs => Run fs [] (Raise e).

Definition bind {A B} (m : IO A) (k : A → IO B) : IO B :=
  fun fs =>
    let r := m fs in
    match returned r with
    | Ok a =>
        let r' := k a (fs_after r) in
        Run (fs_after r') (stdout r ++ stdout r') (returned r')
    | Raise e => Run (fs_after r) (stdout r) (Raise e)
    end.

(** [try: m except Exception as e: h e] *)
Definition try_except {A} (m : IO A) (h : exn → IO A) : IO A :=
  fun fs =>
    let r := m fs in
    match returned r with
    | Ok a => r
    | Raise e =>
        let r' := h e (fs_after r) in
        Run (fs_after r') (stdout r ++ stdout r') (returned r')
    end.

Definition print (line : string) : IO unit := fun fs => Run fs [line] (Ok ()).

Definition print_all (lines : list string) : IO unit :=
  fun fs => Run fs lines (Ok ()).

(** [with open(p, 'r', encoding='utf-8') as f: f.read()] *)
Definition read_text (p : string) : IO text :=
  fun fs =>
    match fs !! p with
    | Some f => Run fs [] (read_as f)
    | None => Run fs [] (Raise (OSError "[Errno 2] No such file or directory"))
    end.

(** [with open(p, 'w', encoding='utf-8-sig') as f: f.write(content)] *)
Definition write_text (p : string) (content : text) : IO unit :=
  fun fs =>
    match fs !! p ≫= write_err with
    | Some e => Run fs [] (Raise e)
    | None => Run (<[p := File (Ok (BOM :: content)) None]> fs) [] (Ok ())
    end.

End Fs.

Import Fs.

(** [x ← m; k] and [m;; k] are stdpp's notations for [bind]. *)
#[global] Instance io_ret : MRet IO := @Fs.ret.
#[global] Instance io_bind : MBind IO := fun A B k m => Fs.bind m k.

(** ** The script *)

Record rule := Rule { pattern : Re.regex; replacement : text; description : string }.

(** [REPLACEMENTS], as the script spells it: the raw pattern string, the
    replacement and the description.  The replacement literals of the
    script are question marks, as transcribed here. *)
Definition REPLACEMENTS_src : list (string * string * string) :=
  [ (* Box-drawing characters (multi-char patterns first) *)
    ("\?\?\?", "???", "Tree branch with line");
    ("\?   \?", "?   ?", "Tree vertical + branch");
    ("\?   ", "?   ", "Tree vertical with spaces");
    (* Emojis with context (to avoid replacing wrong '?' marks) *)
    ("\? \*\*Teaches\*\*", "?? **Teaches**", "Books emoji");
    ("\? \*\*Demonstrates\*\*", "?? **Demonstrates**", "Light bulb emoji");
    ("\? \*\*Engages\*\*", "?? **Engages**", "Handshake emoji");
    ("\? \*\*Guides\*\*", "?? **Guides**", "Graduation cap emoji");
    ("\? \*\*Inspires\*\*", "? **Inspires**", "Sparkles emoji");
    ("extraordinary! \?\?", "extraordinary! ??", "Rocket emoji");
    ("### \?\? \*\*Vision Statement\*\*", "### ?? **Vision Statement**",
     "Target emoji");
    ("## \?\? \*\*Vision Statement\*\*", "### ?? **Vision Statement**",
     "Target emoji (alternate)");
    (* Status emojis with common patterns *)
    ("(?<=\|)\s*\?\?\s*(?=\|)", " ?? ", "Target in table");
    ("- \? Complete", "- ? Complete", "Check mark");
    ("- \? Planned", "- ? Planned", "Hourglass");
    ("- \? Partial", "- ?? Partial", "Yellow circle") ].

Definition compile_rule (src : string * string * string) : option rule :=
  let '(pat, repl, descr) := src in
  r ← Re.compile pat;
  t ← Re.template repl;
  Some (Rule r t descr).

(** The table with its patterns compiled; every entry is inside the
    fragment (lemma [REPLACEMENTS_compiled] below). *)
Definition REPLACEMENTS : list rule :=
  default [] (mapM compile_rule REPLACEMENTS_src).

(** One turn of the loop over the table (lines 52-58): the state is the
    current content, the running count and the lines printed so far. *)
Definition apply_rule (st : text * nat * list string) (r : rule)
  : text * nat * list string :=
  let '(content, replacement_count, printed) := st in
  let matches := length (Re.findall (pattern r) content) in
  if Nat.ltb 0 matches then
    (Re.sub (pattern r) (replacement r) content,
     replacement_count + matches,
     printed ++ ["  - " +:+ description r +:+ ": " +:+ pretty matches
                 +:+ " replacements"])
  else st.

Definition apply_rules (rules : list rule) (content : text)
  : text * nat * list string :=
  fold_left apply_rule rules (content, 0, []).

Definition fix_file_with (rules : list rule) (file_path : string)
  (dry_run : bool) : IO (bool * nat) :=
  try_except
    (content ← read_text file_path;
     let original_content := content in
     let '(content, replacement_count, printed) := apply_rules rules content in
     print_all printed;;
     if negb (Text.eqb content original_content) then
       (if negb dry_run then write_text file_path content else ret ());;
       ret (true, replacement_count)
     else ret (false, 0))
    (fun e => print ("  ERROR: " +:+ message e);; ret (false, 0)).

Definition fix_file : string → bool → IO (bool * nat) :=
  fix_file_with REPLACEMENTS.

(** The loop of [main] over [sorted(md_files)], with its two counters.
    [files] is the sorted list; the header line shows the path as given
    (the script shortens it to the part below [docs]). *)
Fixpoint process_files (files : list string) (dry_run : bool)
  (fixed_count total_replacements : nat) : IO (nat * nat) :=
  match files with
  | [] => ret (fixed_count, total_replacements)
  | file_path :: rest =>
      print ("Processing: " +:+ file_path);;
      '(changed, replacements) ← fix_file file_path dry_run;
      '(fixed_count, total_replacements) ←
        (if changed : bool then
           let status := if dry_run then "Would fix" else "? Fixed" in
           print ("  " +:+ status +:+ ": " +:+ pretty replacements
                  +:+ " replacements");;
           ret (fixed_count + 1, total_replacements + replacements)
         else
           print "  No changes needed";;
           ret (fixed_count, total_replacements));
      print "";;
      process_files rest dry_run fixed_count total_replacements
  end.

(** *** [sorted(md_files)]

    The files are [Path] objects; [pathlib] orders paths by their parts,
    compared as tuples of strings (POSIX flavour: the separator is [/] and
    case counts). *)

Fixpoint parts_of (p : string) : list string :=
  match p with
  | EmptyString => [""]
  | String a p' =>
      if Ascii.eqb a (Ascii.ascii_of_nat 47) then "" :: parts_of p'
      else
        match parts_of p' with
        | part :: more => String a part :: more
        | [] => [String a ""]
        end
  end.

Fixpoint parts_leb (a b : list string) : bool :=
  match a, b with
  | [], _ => true
  | _ :: _, [] => false
  | x :: a', y :: b' =>
      match String.compare x y with
      | Lt => true
      | Gt => false
      | Eq => parts_leb a' b'
      end
  end.

Definition path_le (p q : string) : Prop :=
  Is_true (parts_leb (parts_of p) (parts_of q)).

#[global] Instance path_le_dec : RelDecision path_le.
Proof. intros p q. unfold path_le. apply _. Defined.

Definition sorted (md_files : list string) : list string :=
  merge_sort path_le md_files.

(** *** [main]

    [argv] is [sys.argv]; [docs] is what the script finds at
    [Path('docs')]: [None] when it does not exist, else
    [list(docs_dir.rglob('*.md'))].  The value returned is the exit
    status handed to [sys.exit]. *)

Definition nl : string := String (Ascii.ascii_of_nat 10) "".

Definition main (argv : list string) (docs : option (list string)) : IO nat :=
  let dry_run :=
    bool_decide ("--dry-run" ∈ argv) || bool_decide ("-n" ∈ argv) in
  print (nl +:+ "=== Markdown Encoding Fix ===");;
  (if dry_run
   then print ("Running in DRY RUN mode (no changes will be made)" +:+ nl)
   else print ("Running in LIVE mode (files will be modified)" +:+ nl));;
  match docs with
  | None =>
      print "Error: docs directory not found";;
      ret 1
  | Some md_files =>
      print ("Found " +:+ pretty (length md_files) +:+ " markdown files" +:+ nl);;
      '(fixed_count, total_replacements) ←
        process_files (sorted md_files) dry_run 0 0;
      print "=== Summary ===";;
      print ("Files processed: " +:+ pretty (length md_files));;
      print ("Files fixed: " +:+ pretty fixed_count);;
      print ("Total replacements: " +:+ pretty total_replacements);;
      (if dry_run && Nat.ltb 0 fixed_count then
         print (nl +:+ "??  Run without --dry-run to apply changes")
       else if Nat.ltb 0 fixed_count then
         print (nl +:+ "? Complete! Verify changes with:");;
         print "  git diff docs/"
       else ret ());;
      ret 0
  end.

(** ** Reading the script's results *)

(** The content held by the loop variable after the last rule. *)
Definition content_after (rules : list rule) (t : text) : text :=
  (apply_rules rules t).1.1.

(** The running count after the last rule. *)
Definition count_after (rules : list rule) (t : text) : nat :=
  (apply_rules rules t).1.2.

(** The lines the loop prints. *)
Definition report_of (rules : list rule) (t : text) : list string :=
  (apply_rules rules t).2.

(** [with_file fs p t]: the storage [fs] with, at [p], a file that reads
    as [t] and can be written. *)
Definition with_file (fs : storage) (p : string) (t : text) : storage :=
  <[p := File (Ok t) None]> fs.

(** ** The behaviour in the words of the specification

    "For each rule in table order, count all non-overlapping matches of
    its pattern in the current text, then substitute all such matches
    with the rule's replacement."  Here the substitution is done for
    every rule, matched or not. *)

Definition substitute (r : rule) (current : text) : text :=
  Re.sub (pattern r) (replacement r) current.

Definition count_matches (r : rule) (current : text) : nat :=
  length (Re.findall (pattern r) current).

Fixpoint compose (rules : list rule) (current : text) : text :=
  match rules with
  | [] => current
  | r :: rest => compose rest (substitute r current)
  end.

Fixpoint match_counts (rules : list rule) (current : text) : list nat :=
  match rules with
  | [] => []
  | r :: rest => count_matches r current :: match_counts rest (substitute r current)
  end.

(** ** What a pattern needs and what it ignores *)

(** The line printed for a rule with [matches] matches. *)
Definition report_line (r : rule) (matches : nat) : string :=
  "  - " +:+ description r +:+ ": " +:+ pretty matches +:+ " replacements".

(** [mentions c r]: the pattern [r] has the literal [c] among its atoms. *)
Definition mentions (c : char) (r : Re.regex) : bool :=
  existsb (fun a => match a with
                    | Re.One (Re.Chr d) => N.eqb d c
                    | _ => false
                    end) r.

(** [behind_blind x r]: no look-behind of [r] accepts [x]. *)
Definition behind_blind (x : char) (r : Re.regex) : bool :=
  forallb (fun a => match a with
                    | Re.Behind k => negb (Re.in_cls k x)
                    | _ => true
                    end) r.

(** [blind_to x r]: no match of [r] can start at the character [x], and
    no look-behind of [r] accepts [x]. *)
Definition blind_to (x : char) (r : Re.regex) : bool :=
  match r with
  | Re.One k :: _ => negb (Re.in_cls k x)
  | Re.Behind _ :: _ => true
  | _ => false
  end
  && behind_blind x r.

(** * Properties *)

(** ** The rule table *)

Lemma REPLACEMENTS_compiled :
  mapM compile_rule REPLACEMENTS_src = Some REPLACEMENTS.
Proof. vm_compute. reflexivity. Qed.

Lemma REPLACEMENTS_descriptions :
  description <$> REPLACEMENTS = (fun src => src.2) <$> REPLACEMENTS_src.
Proof. vm_compute. reflexivity. Qed.

(** ** Text equality *)

Lemma text_eqb_eq (a b : text) : Text.eqb a b = true ↔ a = b.
Proof.
  revert b. induction a as [|x a IH]; intros [|y b]; simpl; try easy.
  rewrite andb_true_iff, N.eqb_eq, IH. split.
  - intros [-> ->]. reflexivity.
  - intros E. injection E. auto.
Qed.

Lemma text_eqb_refl (a : text) : Text.eqb a a = true.
Proof. apply text_eqb_eq. reflexivity. Qed.

Lemma text_eqb_neq (a b : text) : Text.eqb a b = false ↔ a ≠ b.
Proof.
  rewrite <- text_eqb_eq. destruct (Text.eqb a b); split; congruence.
Qed.

(** ** Matching: [findall] and [sub] cut the text at the same places *)

Section Scan.

Variable r : Re.regex.
Variable repl : text.

(** Where the scan finds no match, rebuilding the text gives back what
    was scanned. *)
Lemma rebuild_without_hits (after : text) :
  ∀ (skip : nat) (before : text),
    Re.hits (Re.finditer r skip before after) = [] →
    Re.rebuild repl (Re.finditer r skip before after) = drop skip after.
Proof.
  induction after as [|c after IH]; intros skip before.
  - destruct skip as [|k]; simpl.
    + destruct (Re.match_here r false before []) as [[|x m]|]; simpl;
        try discriminate; reflexivity.
    + reflexivity.
  - destruct skip as [|k].
    + cbn [Re.finditer].
      destruct (Re.match_here r false before (c :: after)) as [[|x m]|].
      * simpl. discriminate.
      * simpl. discriminate.
      * intros H. cbn [Re.hits omap list_omap] in H.
        change (Re.rebuild repl (Re.Keep c :: ?l)) with (c :: Re.rebuild repl l).
        rewrite (IH 0 (c :: before) H). reflexivity.
    + cbn [Re.finditer]. intros H. rewrite (IH k (c :: before) H). reflexivity.
Qed.

Lemma sub_without_match (s : text) :
  length (Re.findall r s) = 0 → Re.sub r repl s = s.
Proof.
  intros H. apply nil_length_inv in H. unfold Re.sub.
  rewrite (rebuild_without_hits s 0 [] H). reflexivity.
Qed.

End Scan.

(** ** The loop over the table *)

Section Loop.

Implicit Types (rules : list rule) (r : rule) (c t : text) (n : nat).

Lemma apply_rule_content c n out r :
  (apply_rule (c, n, out) r).1.1 = substitute r c.
Proof.
  unfold apply_rule, substitute.
  destruct (Nat.ltb 0 (length (Re.findall (pattern r) c))) eqn:E; simpl.
  - reflexivity.
  - apply Nat.ltb_ge in E. symmetry. apply sub_without_match. lia.
Qed.

Lemma apply_rule_count c n out r :
  (apply_rule (c, n, out) r).1.2 = n + count_matches r c.
Proof.
  unfold apply_rule, count_matches.
  destruct (Nat.ltb 0 (length (Re.findall (pattern r) c))) eqn:E; simpl.
  - reflexivity.
  - apply Nat.ltb_ge in E. lia.
Qed.

Lemma fold_apply_rule rules :
  ∀ c n out,
    (fold_left apply_rule rules (c, n, out)).1.1 = compose rules c ∧
    (fold_left apply_rule rules (c, n, out)).1.2
    = n + sum_list (match_counts rules c).
Proof.
  induction rules as [|r rules IH]; intros c n out.
  - simpl. split; [reflexivity | lia].
  - cbn [fold_left compose match_counts sum_list sum_list_with].
    pose proof (apply_rule_content c n out r) as Hc.
    pose proof (apply_rule_count c n out r) as Hn.
    destruct (apply_rule (c, n, out) r) as [[c' n'] out']. simpl in Hc, Hn.
    subst c' n'.
    destruct (IH (substitute r c) (n + count_matches r c) out') as [Hc Hn].
    rewrite Hc, Hn. split; [reflexivity | unfold id; lia].
Qed.

Lemma content_after_compose rules t : content_after rules t = compose rules t.
Proof. unfold content_after, apply_rules. apply fold_apply_rule. Qed.

Lemma count_after_sum rules t :
  count_after rules t = sum_list (match_counts rules t).
Proof.
  unfold count_after, apply_rules.
  destruct (fold_apply_rule rules t 0 []) as [_ ->]. reflexivity.
Qed.

(** Without a match the text stays as it is. *)
Lemma compose_without_match rules :
  ∀ t, sum_list (match_counts rules t) = 0 → compose rules t = t.
Proof.
  induction rules as [|r rules IH]; intros t H; simpl in *.
  - reflexivity.
  - assert (count_matches r t = 0) as H0 by lia.
    assert (substitute r t = t) as Hs by (apply sub_without_match; exact H0).
    rewrite Hs in *. apply IH. lia.
Qed.

Lemma changed_has_match rules t :
  content_after rules t ≠ t → (1 ≤ count_after rules t)%nat.
Proof.
  rewrite content_after_compose, count_after_sum. intros H.
  destruct (sum_list (match_counts rules t)) eqn:E; [|lia].
  exfalso. apply H. apply compose_without_match. exact E.
Qed.

(** Rules that each leave the text alone leave it alone together. *)
Lemma compose_fixed rules t :
  Forall (fun r => substitute r t = t) rules → compose rules t = t.
Proof.
  induction 1 as [|r rules Hr _ IH]; simpl.
  - reflexivity.
  - rewrite Hr. exact IH.
Qed.

End Loop.

(** ** [fix_file], case by case *)

Lemma fix_file_with_run rules p dry (fs : storage) :
  fix_file_with rules p dry fs =
  match fs !! p with
  | None =>
      Run fs ["  ERROR: [Errno 2] No such file or directory"] (Ok (false, 0))
  | Some f =>
      match read_as f with
      | Raise e => Run fs ["  ERROR: " +:+ message e] (Ok (false, 0))
      | Ok t =>
          let c := content_after rules t in
          if Text.eqb c t then Run fs (report_of rules t) (Ok (false, 0))
          else if dry then
            Run fs (report_of rules t) (Ok (true, count_after rules t))
          else
            match write_err f with
            | Some e =>
                Run fs (report_of rules t ++ ["  ERROR: " +:+ message e])
                  (Ok (false, 0))
            | None =>
                Run (<[p := File (Ok (BOM :: c)) None]> fs) (report_of rules t)
                  (Ok (true, count_after rules t))
            end
      end
  end.
Proof.
  unfold fix_file_with, try_except, mbind, io_bind, Fs.bind, read_text,
    content_after, count_after, report_of.
  destruct (fs !! p) as [f|] eqn:Ef; simpl; [|reflexivity].
  destruct (read_as f) as [t|e]; simpl; [|reflexivity].
  destruct (apply_rules rules t) as [[c n] out]; simpl.
  destruct (Text.eqb c t); simpl.
  - rewrite app_nil_r. reflexivity.
  - destruct dry; simpl.
    + rewrite app_nil_r. reflexivity.
    + unfold write_text. rewrite Ef. simpl.
      destruct (write_err f) as [e|]; simpl.
      * rewrite app_nil_r. reflexivity.
      * rewrite app_nil_r. reflexivity.
Qed.

(** On a file that reads as [t] and accepts the write. *)
Lemma fix_file_with_file rules p dry (fs : storage) t :
  fix_file_with rules p dry (with_file fs p t) =
  let c := content_after rules t in
  if Text.eqb c t then
    Run (with_file fs p t) (report_of rules t) (Ok (false, 0))
  else if dry then
    Run (with_file fs p t) (report_of rules t) (Ok (true, count_after rules t))
  else
    Run (with_file fs p (BOM :: c)) (report_of rules t)
      (Ok (true, count_after rules t)).
Proof.
  rewrite fix_file_with_run. unfold with_file.
  rewrite lookup_insert_eq. simpl.
  rewrite insert_insert_eq. reflexivity.
Qed.

(** [fix_file] always returns a pair: the handler catches what the body
    raises. *)
Lemma fix_file_with_returns rules p dry (fs : storage) :
  ∃ changed n, returned (fix_file_with rules p dry fs) = Ok (changed, n).
Proof.
  rewrite fix_file_with_run.
  destruct (fs !! p) as [f|]; [|by eexists _, _].
  destruct (read_as f) as [t|e]; [|by eexists _, _]. simpl.
  destruct (Text.eqb _ t); [by eexists _, _|].
  destruct dry; [by eexists _, _|].
  destruct (write_err f); by eexists _, _.
Qed.

(** [fix_file] on [p] looks at the file of [p] only ... *)
Lemma fix_file_with_local rules p dry (fs1 fs2 : storage) :
  fs1 !! p = fs2 !! p →
  returned (fix_file_with rules p dry fs1) = returned (fix_file_with rules p dry fs2)
  ∧ stdout (fix_file_with rules p dry fs1) = stdout (fix_file_with rules p dry fs2)
  ∧ fs_after (fix_file_with rules p dry fs1) !! p
    = fs_after (fix_file_with rules p dry fs2) !! p.
Proof.
  intros H. rewrite !fix_file_with_run, <- H.
  destruct (fs1 !! p) as [f|] eqn:E; [|simpl; repeat split; congruence].
  destruct (read_as f) as [t|e]; [|simpl; repeat split; congruence]. simpl.
  destruct (Text.eqb _ t); [simpl; repeat split; congruence|].
  destruct dry; [simpl; repeat split; congruence|].
  destruct (write_err f); [simpl; repeat split; congruence|].
  simpl. by rewrite !lookup_insert_eq.
Qed.

(** ... and touches the file of [p] only. *)
Lemma fix_file_with_frame rules p dry (fs : storage) q :
  q ≠ p → fs_after (fix_file_with rules p dry fs) !! q = fs !! q.
Proof.
  intros H. rewrite fix_file_with_run.
  destruct (fs !! p) as [f|]; [|done].
  destruct (read_as f) as [t|e]; [|done]. simpl.
  destruct (Text.eqb _ t); [done|].
  destruct dry; [done|].
  destruct (write_err f); [done|].
  simpl. by rewrite lookup_insert_ne.
Qed.

(** ** The loop of [main] *)

Lemma process_files_step p rest dry a b (fs : storage) changed n :
  returned (fix_file p dry fs) = Ok (changed, n) →
  let next :=
    process_files rest dry (if changed then a + 1 else a)
      (if changed then b + n else b) (fs_after (fix_file p dry fs)) in
  fs_after (process_files (p :: rest) dry a b fs) = fs_after next
  ∧ returned (process_files (p :: rest) dry a b fs) = returned next.
Proof.
  intros H. cbn [process_files].
  unfold mbind, io_bind, Fs.bind, print. simpl. rewrite H.
  destruct changed; simpl; split; reflexivity.
Qed.

Lemma process_files_frame files :
  ∀ dry a b (fs : storage) q,
    q ∉ files → fs_after (process_files files dry a b fs) !! q = fs !! q.
Proof.
  induction files as [|p rest IH]; intros dry a b fs q Hq.
  - reflexivity.
  - apply not_elem_of_cons in Hq as [Hne Hq].
    destruct (fix_file_with_returns REPLACEMENTS p dry fs) as (changed & n & Hr).
    destruct (process_files_step p rest dry a b fs changed n Hr) as [-> _].
    rewrite (IH _ _ _ _ q Hq). by apply fix_file_with_frame.
Qed.

(** ** The loop on three texts of the specification *)

Lemma loop_on_check_mark :
  apply_rules REPLACEMENTS (of_string "- ? Complete")
  = (of_string "- ? Complete", 1, ["  - Check mark: 1 replacements"]).
Proof. vm_compute. reflexivity. Qed.

Lemma loop_on_teaches :
  apply_rules REPLACEMENTS (of_string "? **Teaches**")
  = (of_string "?? **Teaches**", 1, ["  - Books emoji: 1 replacements"]).
Proof. vm_compute. reflexivity. Qed.

Lemma loop_on_teaches_again :
  apply_rules REPLACEMENTS (of_string "?? **Teaches**")
  = (of_string "??? **Teaches**", 1, ["  - Books emoji: 1 replacements"]).
Proof. vm_compute. reflexivity. Qed.

Lemma loop_on_teaches_stored :
  apply_rules REPLACEMENTS (BOM :: of_string "?? **Teaches**")
  = (BOM :: of_string "??? **Teaches**", 1, ["  - Books emoji: 1 replacements"]).
Proof. vm_compute. reflexivity. Qed.

Lemma loop_on_vision_statement :
  apply_rules REPLACEMENTS (of_string "## ?? **Vision Statement**")
  = (of_string "### ?? **Vision Statement**", 1,
     ["  - Target emoji (alternate): 1 replacements"]).
Proof. vm_compute. reflexivity. Qed.

(** Unfolds a run of [fix_file] on [with_file] with the loop's result
    given by [L]. *)
Ltac run_with L :=
  unfold fix_file; rewrite ?fix_file_with_file;
  unfold content_after, count_after, report_of; rewrite ?L; simpl.

(** * The claims *)

(** ** C1: the returned count and the per-rule match counts *)

(** C1 does not hold of the code: on the text [- ? Complete] the rules
    count one match in all (the check-mark rule), but the replacement of
    that rule is the matched text itself, so the text is unchanged and
    [fix_file] returns the count 0 where the sum of the per-rule match
    counts is 1. *)
Lemma count_differs_from_sum_of_matches :
  let t := of_string "- ? Complete" in
  let p := "docs/status.md" in
  match_counts REPLACEMENTS t = [0; 0; 0; 0; 0; 0; 0; 0; 0; 0; 0; 0; 1; 0; 0]
  ∧ sum_list (match_counts REPLACEMENTS t) = 1
  ∧ returned (fix_file p false (with_file ∅ p t)) = Ok (false, 0).
Proof.
  split; [vm_compute; reflexivity|].
  split; [vm_compute; reflexivity|].
  run_with loop_on_check_mark. reflexivity.
Qed.

(** The count is lost only there: whenever the final text differs from
    the original, the count returned is the sum over the rules in table
    order of the number of matches of the rule's pattern in the text
    current when the rule is applied. *)
Lemma count_is_sum_of_matches_when_changed (fs : storage) p t dry :
  returned (fix_file p dry (with_file fs p t))
  = Ok (if Text.eqb (content_after REPLACEMENTS t) t
        then (false, 0)
        else (true, sum_list (match_counts REPLACEMENTS t))).
Proof.
  unfold fix_file. generalize REPLACEMENTS. intros rules.
  rewrite fix_file_with_file. cbv zeta.
  rewrite count_after_sum.
  destruct (Text.eqb _ t); [reflexivity|]. destruct dry; reflexivity.
Qed.

(** ** C2: a second run on the output of the first *)

(** C2 (idempotence) does not hold of the code: the text [? **Teaches**]
    is fixed to [?? **Teaches**], which the same rule matches again; the
    Text Fixer applied to that output reports a change and one
    replacement, and so does a second run on the file as stored. *)
Theorem second_run_changes_again (fs : storage) p :
  let t0 := of_string "? **Teaches**" in
  let t1 := of_string "?? **Teaches**" in
  fix_file p false (with_file fs p t0)
  = Run (with_file fs p (BOM :: t1)) ["  - Books emoji: 1 replacements"]
      (Ok (true, 1))
  ∧ content_after REPLACEMENTS t0 = t1
  ∧ returned (fix_file p false (with_file fs p t1)) = Ok (true, 1)
  ∧ returned
      (fix_file p false (fs_after (fix_file p false (with_file fs p t0))))
    = Ok (true, 1).
Proof.
  intros t0 t1. subst t0 t1.
  assert (fix_file p false (with_file fs p (of_string "? **Teaches**"))
          = Run (with_file fs p (BOM :: of_string "?? **Teaches**"))
              ["  - Books emoji: 1 replacements"] (Ok (true, 1))) as H.
  { run_with loop_on_teaches. reflexivity. }
  split; [exact H|].
  split; [unfold content_after; rewrite loop_on_teaches; reflexivity|].
  split.
  - run_with loop_on_teaches_again. reflexivity.
  - rewrite H. simpl. run_with loop_on_teaches_stored. reflexivity.
Qed.

(** ** C3: the line [- ? Complete] *)

(** C3 does not hold of the code: on the text [- ? Complete] the Text
    Fixer prints one replacement under the label "Check mark", but the
    replacement is the matched text, the content is unchanged, nothing is
    written and [(false, 0)] is returned. *)
Theorem check_mark_reported_but_unchanged (fs : storage) p dry :
  let t := of_string "- ? Complete" in
  fix_file p dry (with_file fs p t)
  = Run (with_file fs p t) ["  - Check mark: 1 replacements"] (Ok (false, 0)).
Proof.
  intros t. subst t. run_with loop_on_check_mark. reflexivity.
Qed.

(** ** C4: the flag [changed] *)

(** C4: for every input text, [changed] is true if and only if the final
    text after applying all rules differs from the original; a text that
    no rule changes yields [(false, 0)]. *)
Theorem changed_iff_final_text_differs (fs : storage) p t dry :
  ∃ changed n,
    returned (fix_file p dry (with_file fs p t)) = Ok (changed, n)
    ∧ (changed = true ↔ content_after REPLACEMENTS t ≠ t)
    ∧ (Forall (fun r => substitute r t = t) REPLACEMENTS →
       changed = false ∧ n = 0).
Proof.
  unfold fix_file. generalize REPLACEMENTS. intros rules.
  rewrite fix_file_with_file. cbv zeta.
  destruct (Text.eqb (content_after rules t) t) eqn:E.
  - apply text_eqb_eq in E. exists false, 0.
    split; [reflexivity|]. split; [|done].
    split; [discriminate | intros H; contradiction].
  - apply text_eqb_neq in E.
    exists true, (count_after rules t).
    split; [destruct dry; reflexivity|]. split; [done|].
    intros H. exfalso. apply E.
    rewrite content_after_compose. by apply compose_fixed.
Qed.

(** ** C5: the rules are composed in table order *)

(** C5: for every input text, the content after the loop is the
    composition of the rules from left to right, each rule substituting
    in the text left by the rules before it; this text, behind the
    byte-order mark, is what a live run stores when it differs from the
    original. *)
Theorem output_is_sequential_composition (fs : storage) p t dry :
  content_after REPLACEMENTS t = compose REPLACEMENTS t
  ∧ fs_after (fix_file p dry (with_file fs p t)) !! p
    = Some (File (Ok (if dry || Text.eqb (compose REPLACEMENTS t) t
                      then t
                      else BOM :: compose REPLACEMENTS t)) None).
Proof.
  split; [apply content_after_compose|].
  unfold fix_file. generalize REPLACEMENTS. intros rules.
  rewrite fix_file_with_file. cbv zeta.
  rewrite <- content_after_compose.
  destruct (Text.eqb (content_after rules t) t);
    [rewrite orb_true_r | destruct dry];
    cbn [fs_after orb]; apply lookup_insert_eq.
Qed.

(** A later rule works on what the earlier rules left: in
    [extraordinary! ? **Teaches**] the rocket rule (the ninth) has no
    match, and finds one once the books rule (the fourth) has put a
    second question mark. *)
Example later_rule_sees_earlier_output :
  let t := of_string "extraordinary! ? **Teaches**" in
  (fun r => count_matches r t) <$> REPLACEMENTS
  = [0; 0; 0; 1; 0; 0; 0; 0; 0; 0; 0; 0; 0; 0; 0]
  ∧ match_counts REPLACEMENTS t
    = [0; 0; 0; 1; 0; 0; 0; 0; 1; 0; 0; 0; 0; 0; 0]
  ∧ compose REPLACEMENTS t = of_string "extraordinary! ?? **Teaches**".
Proof. repeat split; vm_compute; reflexivity. Qed.

(** ** C6: the heading [## ?? **Vision Statement**] *)

(** C6: on the text [## ?? **Vision Statement**] the Text Fixer produces
    [### ?? **Vision Statement**]; of the two Vision-Statement rules the
    first (three hashes) has no match and the alternate one has one, so
    the occurrence is counted once: the count is 1. *)
Theorem vision_statement_counted_once (fs : storage) p dry :
  let t := of_string "## ?? **Vision Statement**" in
  let t' := of_string "### ?? **Vision Statement**" in
  content_after REPLACEMENTS t = t'
  ∧ match_counts REPLACEMENTS t = [0; 0; 0; 0; 0; 0; 0; 0; 0; 0; 1; 0; 0; 0; 0]
  ∧ returned (fix_file p dry (with_file fs p t)) = Ok (true, 1)
  ∧ stdout (fix_file p dry (with_file fs p t))
    = ["  - Target emoji (alternate): 1 replacements"]
  ∧ fs_after (fix_file p false (with_file fs p t)) = with_file fs p (BOM :: t').
Proof.
  intros t t'. subst t t'.
  split; [unfold content_after; rewrite loop_on_vision_statement; reflexivity|].
  split; [vm_compute; reflexivity|].
  split; [|split].
  - run_with loop_on_vision_statement. destruct dry; reflexivity.
  - run_with loop_on_vision_statement. destruct dry; reflexivity.
  - run_with loop_on_vision_statement. reflexivity.
Qed.

(** ** C7: simulation mode *)

(** C7: a dry run leaves the storage as it was, whatever the file and
    however many matches there are, and on every input text it reports
    the pair (and prints the lines) that a live run reports on that
    text. *)
Theorem dry_run_writes_nothing_reports_same (fs : storage) p t :
  fs_after (fix_file p true fs) = fs
  ∧ returned (fix_file p true (with_file fs p t))
    = returned (fix_file p false (with_file fs p t))
  ∧ stdout (fix_file p true (with_file fs p t))
    = stdout (fix_file p false (with_file fs p t)).
Proof.
  unfold fix_file. generalize REPLACEMENTS. intros rules. split.
  - rewrite fix_file_with_run.
    destruct (fs !! p) as [f|]; [|reflexivity].
    destruct (read_as f) as [c|e]; [|reflexivity]. cbv zeta.
    destruct (Text.eqb _ c); reflexivity.
  - rewrite !fix_file_with_file. cbv zeta.
    destruct (Text.eqb _ t); split; reflexivity.
Qed.

(** ** C8: determinism and isolation *)

(** C8: the result of the Text Fixer on a file is fixed by the text of
    that file: whichever other files were processed before, in whatever
    order and mode, the run returns the same pair, prints the same lines
    and leaves the same text in the file. *)
Theorem fix_file_deterministic (fs : storage) p t dry
  (others1 others2 : list string) d1 d2 a1 b1 a2 b2 :
  p ∉ others1 → p ∉ others2 →
  let fs1 := fs_after (process_files others1 d1 a1 b1 (with_file fs p t)) in
  let fs2 := fs_after (process_files others2 d2 a2 b2 (with_file fs p t)) in
  returned (fix_file p dry fs1) = returned (fix_file p dry fs2)
  ∧ stdout (fix_file p dry fs1) = stdout (fix_file p dry fs2)
  ∧ fs_after (fix_file p dry fs1) !! p = fs_after (fix_file p dry fs2) !! p.
Proof.
  intros H1 H2 fs1 fs2. apply fix_file_with_local. subst fs1 fs2.
  rewrite !process_files_frame by assumption. reflexivity.
Qed.

(** ** C9: errors of reading, decoding and writing *)

(** C9: when reading or decoding the file raises, or the write of a
    changed text raises, [fix_file] raises nothing: it prints the error
    and returns [(false, 0)]; the loop of [main] then goes on with the
    next file and both counters as they were. *)
Theorem io_error_is_no_change (fs : storage) p dry e :
  returned (read_text p fs) = Raise e
  ∨ (∃ t, returned (read_text p fs) = Ok t
          ∧ dry = false
          ∧ content_after REPLACEMENTS t ≠ t
          ∧ returned (write_text p (content_after REPLACEMENTS t) fs) = Raise e) →
  returned (fix_file p dry fs) = Ok (false, 0)
  ∧ last (stdout (fix_file p dry fs)) = Some ("  ERROR: " +:+ message e)
  ∧ ∀ rest a b,
      returned (process_files (p :: rest) dry a b fs)
      = returned (process_files rest dry a b (fs_after (fix_file p dry fs))).
Proof.
  intros H.
  assert (returned (fix_file p dry fs) = Ok (false, 0)
          ∧ last (stdout (fix_file p dry fs)) = Some ("  ERROR: " +:+ message e))
    as [Hr Hout].
  { unfold fix_file. revert H. generalize REPLACEMENTS. intros rules H.
    rewrite fix_file_with_run. unfold read_text, write_text in H.
    destruct (fs !! p) as [f|]; simpl in H.
    - destruct H as [H | (t & Ht & -> & Hne & Hw)].
      + rewrite H. split; reflexivity.
      + rewrite Ht. cbv zeta. apply text_eqb_neq in Hne. rewrite Hne.
        destruct (write_err f) as [e'|]; [|discriminate].
        injection Hw as ->. split; [reflexivity|]. apply last_snoc.
    - destruct H as [H | (t & Ht & _)]; [|discriminate].
      injection H as <-. split; reflexivity. }
  split; [exact Hr|]. split; [exact Hout|].
  intros rest a b.
  destruct (process_files_step p rest dry a b fs false 0 Hr) as [_ ->].
  reflexivity.
Qed.

(** ** C10: the returned pair *)

(** C10: whatever the file, the mode and the outcome of reading and
    writing, [fix_file] returns a pair in which [changed = false] comes
    with the count 0 and [changed = true] with a count of at least 1. *)
Theorem result_pair_invariant (fs : storage) p dry :
  ∃ changed n,
    returned (fix_file p dry fs) = Ok (changed, n)
    ∧ (changed = false → n = 0)
    ∧ (changed = true → (1 ≤ n)%nat).
Proof.
  unfold fix_file. generalize REPLACEMENTS. intros rules.
  rewrite fix_file_with_run.
  destruct (fs !! p) as [f|]; [|by exists false, 0].
  destruct (read_as f) as [t|e]; [|by exists false, 0]. cbv zeta.
  destruct (Text.eqb _ t) eqn:E; [by exists false, 0|].
  apply text_eqb_neq, changed_has_match in E.
  destruct dry; [by exists true, (count_after rules t)|].
  destruct (write_err f); [by exists false, 0|].
  by exists true, (count_after rules t).
Qed.

(** ** The theorems with hypotheses, at concrete inputs *)

(** C8 at three files: [docs/b.md] is fixed after [docs/a.md] in a live
    run, or after [docs/c.md] and [docs/a.md] in a dry run. *)
Lemma fix_file_deterministic_witness :
  let fs := with_file (with_file ∅ "docs/a.md" (of_string "? **Teaches**"))
              "docs/c.md" (of_string "- ? Partial") in
  let t := of_string "## ?? **Vision Statement**" in
  let fs1 :=
    fs_after (process_files ["docs/a.md"] false 0 0 (with_file fs "docs/b.md" t)) in
  let fs2 :=
    fs_after (process_files ["docs/c.md"; "docs/a.md"] true 0 0
                (with_file fs "docs/b.md" t)) in
  ("docs/b.md" ∉ ["docs/a.md"])
  ∧ ("docs/b.md" ∉ ["docs/c.md"; "docs/a.md"])
  ∧ returned (fix_file "docs/b.md" false fs1)
    = returned (fix_file "docs/b.md" false fs2)
  ∧ stdout (fix_file "docs/b.md" false fs1)
    = stdout (fix_file "docs/b.md" false fs2)
  ∧ fs_after (fix_file "docs/b.md" false fs1) !! "docs/b.md"
    = fs_after (fix_file "docs/b.md" false fs2) !! "docs/b.md".
Proof.
  intros fs t fs1 fs2.
  assert ("docs/b.md" ∉ ["docs/a.md"]) as H1.
  { rewrite not_elem_of_cons. split; [discriminate | apply not_elem_of_nil]. }
  assert ("docs/b.md" ∉ ["docs/c.md"; "docs/a.md"]) as H2.
  { rewrite !not_elem_of_cons.
    repeat split; try discriminate. apply not_elem_of_nil. }
  split; [exact H1|]. split; [exact H2|].
  exact (fix_file_deterministic fs "docs/b.md" t false
           ["docs/a.md"] ["docs/c.md"; "docs/a.md"] false true 0 0 0 0 H1 H2).
Defined.

(** C9 at a file that cannot be written: the text changes, the write
    raises, and the live run reports no change. *)
Lemma io_error_is_no_change_witness :
  let e := OSError "[Errno 13] Permission denied" in
  let fs : storage :=
    {[ "docs/locked.md" := File (Ok (of_string "- ? Partial")) (Some e) ]} in
  returned (fix_file "docs/locked.md" false fs) = Ok (false, 0)
  ∧ last (stdout (fix_file "docs/locked.md" false fs))
    = Some ("  ERROR: " +:+ message e)
  ∧ ∀ rest a b,
      returned (process_files ("docs/locked.md" :: rest) false a b fs)
      = returned (process_files rest false a b
                    (fs_after (fix_file "docs/locked.md" false fs))).
Proof.
  intros e fs.
  apply (io_error_is_no_change fs "docs/locked.md" false e).
  right. exists (of_string "- ? Partial").
  split; [vm_compute; reflexivity|].
  split; [reflexivity|].
  split; [apply text_eqb_neq; vm_compute; reflexivity|].
  vm_compute. reflexivity.
Defined.

(** A file that is not UTF-8 is reported and skipped. *)
Example undecodable_file_is_skipped :
  let e := UnicodeDecodeError "'utf-8' codec can't decode byte 0xff" in
  let fs : storage := {[ "docs/bad.md" := File (Raise e) None ]} in
  fix_file "docs/bad.md" false fs
  = Run fs ["  ERROR: 'utf-8' codec can't decode byte 0xff"] (Ok (false, 0)).
Proof. vm_compute. reflexivity. Qed.

(** * Further properties of the script *)

(** ** What the patterns need *)

Section Needs.

Variable c : char.

(** A pattern with the literal [c] matches only where [c] lies ahead. *)
Lemma match_here_needs (r : Re.regex) :
  mentions c r = true →
  ∀ adv before after m, Re.match_here r adv before after = Some m → c ∈ after.
Proof.
  induction r as [|a r IH]; intros Hm; [discriminate|].
  assert (∀ adv before after m,
             mentions c r = true →
             Re.match_here r adv before after = Some m → c ∈ after) as IH'.
  { intros adv before after m H. by apply IH. }
  destruct a as [k|k|k|k]; cbn [mentions existsb] in Hm.
  - intros adv before [|x after] m; cbn [Re.match_here]; [discriminate|].
    destruct (Re.in_cls k x) eqn:Ek; [|discriminate].
    destruct (Re.match_here r false (x :: before) after) as [m'|] eqn:E;
      [|discriminate].
    intros _. apply orb_true_iff in Hm as [Hk|Hr].
    + destruct k as [d|]; [|discriminate]. simpl in Ek.
      apply N.eqb_eq in Ek, Hk. subst. apply list_elem_of_here.
    + apply list_elem_of_further. by eapply IH'.
  - simpl in Hm. intros adv before after. revert adv before.
    induction after as [|x after IHa]; intros adv before m; cbn [Re.match_here].
    + intros H. by eapply IH'.
    + destruct (Re.in_cls k x).
      * match goal with
        | |- context [match ?s with Some _ => _ | None => _ end] =>
            destruct s as [m'|] eqn:E
        end.
        -- intros _. apply list_elem_of_further.
           eapply (IHa false (x :: before) m'). exact E.
        -- intros H. by eapply IH'.
      * intros H. by eapply IH'.
  - simpl in Hm. intros adv [|y before] after m; cbn [Re.match_here];
      [discriminate|].
    destruct (Re.in_cls k y); [|discriminate]. intros H. by eapply IH'.
  - simpl in Hm. intros adv before [|y after] m; cbn [Re.match_here];
      [discriminate|].
    destruct (Re.in_cls k y); [|discriminate]. intros H. by eapply IH'.
Qed.

(** Scanning a text without [c] finds nothing. *)
Lemma finditer_without (r : Re.regex) (after : text) :
  mentions c r = true → c ∉ after →
  ∀ skip before, Re.hits (Re.finditer r skip before after) = [].
Proof.
  intros Hm. induction after as [|x after IH]; intros Hc skip before.
  - destruct skip; [|reflexivity]. cbn [Re.finditer].
    destruct (Re.match_here r false before []) as [m|] eqn:E; [|reflexivity].
    exfalso. apply Hc. by eapply match_here_needs.
  - apply not_elem_of_cons in Hc as [Hx Hc].
    destruct skip as [|k]; cbn [Re.finditer]; [|by apply IH].
    destruct (Re.match_here r false before (x :: after)) as [m|] eqn:E.
    + exfalso. eapply match_here_needs in E; [|exact Hm].
      apply elem_of_cons in E as [->|E]; [by apply Hx | by apply Hc].
    + cbn [Re.hits omap list_omap]. by apply IH.
Qed.

Lemma findall_without (r : Re.regex) (s : text) :
  mentions c r = true → c ∉ s → Re.findall r s = [].
Proof. intros Hm Hc. by apply finditer_without. Qed.

(** Rules that all need [c] leave a text without [c] alone. *)
Lemma apply_rules_without (rules : list rule) (t : text) :
  forallb (fun r => mentions c (pattern r)) rules = true → c ∉ t →
  ∀ n out, fold_left apply_rule rules (t, n, out) = (t, n, out).
Proof.
  intros Hall Hc. induction rules as [|r rules IH]; intros n out; [reflexivity|].
  cbn [forallb] in Hall. apply andb_true_iff in Hall as [Hr Hall].
  cbn [fold_left]. unfold apply_rule at 2.
  rewrite (findall_without (pattern r) t Hr Hc). cbn [length Nat.ltb Nat.leb].
  by apply IH.
Qed.

End Needs.

Lemma REPLACEMENTS_need_question_mark :
  forallb (fun r => mentions (ch "?") (pattern r)) REPLACEMENTS = true.
Proof. vm_compute. reflexivity. Qed.

(** ** What the patterns ignore *)

Section Blind.

Variable x : char.

(** A match looks at the text behind it through its look-behinds only:
    a character [x] that none of them accepts can be put at the far end
    without effect. *)
Lemma match_here_behind (r : Re.regex) :
  behind_blind x r = true →
  ∀ adv before after,
    Re.match_here r adv (before ++ [x]) after = Re.match_here r adv before after.
Proof.
  induction r as [|a r IH]; intros Hb; [reflexivity|].
  unfold behind_blind in Hb. cbn [forallb] in Hb.
  apply andb_true_iff in Hb as [Ha Hb]. specialize (IH Hb).
  destruct a as [k|k|k|k].
  - intros adv before [|y after]; cbn [Re.match_here]; [reflexivity|].
    destruct (Re.in_cls k y); [|reflexivity].
    by rewrite app_comm_cons, (IH false (y :: before) after).
  - intros adv before after. revert adv before.
    induction after as [|y after IHa]; intros adv before; cbn [Re.match_here].
    + apply IH.
    + destruct (Re.in_cls k y); [|apply IH].
      specialize (IHa false (y :: before)). cbn [Re.match_here] in IHa.
      rewrite app_comm_cons, IHa, IH. reflexivity.
  - intros adv [|y before] after; cbn [Re.match_here app].
    + apply negb_true_iff in Ha. by rewrite Ha.
    + destruct (Re.in_cls k y); [|reflexivity]. apply (IH adv (y :: before)).
  - intros adv before [|y after]; cbn [Re.match_here]; [reflexivity|].
    destruct (Re.in_cls k y); [|reflexivity]. apply IH.
Qed.

Lemma finditer_behind (r : Re.regex) (after : text) :
  behind_blind x r = true →
  ∀ skip before,
    Re.finditer r skip (before ++ [x]) after = Re.finditer r skip before after.
Proof.
  intros Hb. induction after as [|y after IH]; intros skip before.
  - destruct skip; [|reflexivity]. cbn [Re.finditer].
    by rewrite !match_here_behind.
  - destruct skip as [|k]; cbn [Re.finditer].
    + rewrite !match_here_behind by done. rewrite !app_comm_cons.
      destruct (Re.match_here r false before (y :: after)) as [[|z m]|];
        [destruct (Re.match_here r true before (y :: after))|..];
        by rewrite !IH.
    + rewrite app_comm_cons. apply (IH k (y :: before)).
Qed.

(** In front of the text, [x] is kept and the scan goes on as without
    it. *)
Lemma finditer_blind (r : Re.regex) (s : text) :
  blind_to x r = true →
  Re.finditer r 0 [] (x :: s) = Re.Keep x :: Re.finditer r 0 [] s.
Proof.
  unfold blind_to. intros H. apply andb_true_iff in H as [Hs Hb].
  cbn [Re.finditer].
  assert (Re.match_here r false [] (x :: s) = None) as ->.
  { destruct r as [|[k|k|k|k] r]; try discriminate; cbn [Re.match_here].
    - apply negb_true_iff in Hs. by rewrite Hs.
    - reflexivity. }
  f_equal. apply (finditer_behind r s Hb 0 []).
Qed.

Lemma findall_blind (r : Re.regex) (s : text) :
  blind_to x r = true → Re.findall r (x :: s) = Re.findall r s.
Proof. intros H. unfold Re.findall. by rewrite finditer_blind. Qed.

Lemma sub_blind (r : Re.regex) (repl s : text) :
  blind_to x r = true → Re.sub r repl (x :: s) = x :: Re.sub r repl s.
Proof. intros H. unfold Re.sub. by rewrite finditer_blind. Qed.

Lemma apply_rules_blind (rules : list rule) :
  forallb (fun r => blind_to x (pattern r)) rules = true →
  ∀ (t : text) n out,
    fold_left apply_rule rules ((x :: t) : text, n, out)
    = let '(c, n', out') := fold_left apply_rule rules (t, n, out) in
      ((x :: c) : text, n', out').
Proof.
  induction rules as [|r rules IH]; intros Hall t n out; [reflexivity|].
  cbn [forallb] in Hall. apply andb_true_iff in Hall as [Hr Hall].
  cbn [fold_left]. unfold apply_rule at 2 4.
  rewrite (findall_blind _ t Hr), (sub_blind _ _ t Hr).
  destruct (Nat.ltb 0 (length (Re.findall (pattern r) t))); by apply IH.
Qed.

End Blind.

Lemma REPLACEMENTS_blind_to_BOM :
  forallb (fun r => blind_to BOM (pattern r)) REPLACEMENTS = true.
Proof. vm_compute. reflexivity. Qed.

(** ** The loop, rule by rule *)

Lemma apply_rule_eq (c : text) (n : nat) (out : list string) (r : rule) :
  apply_rule (c, n, out) r
  = (substitute r c, n + count_matches r c,
     out ++ (if Nat.ltb 0 (count_matches r c)
             then [report_line r (count_matches r c)] else [])).
Proof.
  unfold apply_rule, substitute, count_matches, report_line.
  destruct (Nat.ltb 0 (length (Re.findall (pattern r) c))) eqn:E.
  - reflexivity.
  - apply Nat.ltb_ge in E. rewrite app_nil_r.
    rewrite sub_without_match by lia. f_equal. f_equal. lia.
Qed.

Lemma fold_apply_rule_report (rules : list rule) :
  ∀ c n out,
    (fold_left apply_rule rules (c, n, out)).2
    = out ++ omap (fun rn => if Nat.ltb 0 rn.2
                             then Some (report_line rn.1 rn.2) else None)
               (zip rules (match_counts rules c)).
Proof.
  induction rules as [|r rules IH]; intros c n out.
  - simpl. by rewrite app_nil_r.
  - cbn [fold_left match_counts zip zip_with omap list_omap].
    rewrite apply_rule_eq, IH. cbn [fst snd].
    destruct (Nat.ltb 0 (count_matches r c)).
    + by rewrite <- app_assoc.
    + by rewrite app_nil_r.
Qed.

(** ** [fix_file]: what it returns and what it stores *)

Lemma fix_file_with_changed rules p dry (fs : storage) n :
  returned (fix_file_with rules p dry fs) = Ok (true, n) → (1 ≤ n)%nat.
Proof.
  rewrite fix_file_with_run.
  destruct (fs !! p) as [f|]; [|discriminate].
  destruct (read_as f) as [t|e]; [|discriminate]. cbv zeta.
  destruct (Text.eqb _ t) eqn:E; [discriminate|].
  apply text_eqb_neq, changed_has_match in E.
  destruct dry; [by intros [= <-]|].
  destruct (write_err f); [discriminate | by intros [= <-]].
Qed.

Lemma fix_file_with_dry rules p (fs : storage) :
  fs_after (fix_file_with rules p true fs) = fs.
Proof.
  rewrite fix_file_with_run.
  destruct (fs !! p) as [f|]; [|reflexivity].
  destruct (read_as f) as [c|e]; [|reflexivity]. cbv zeta.
  destruct (Text.eqb _ c); reflexivity.
Qed.

(** Two runs on two files can be swapped. *)
Lemma fix_file_with_swap rules p q dry dry' (fs : storage) :
  p ≠ q →
  returned (fix_file_with rules q dry' (fs_after (fix_file_with rules p dry fs)))
  = returned (fix_file_with rules q dry' fs)
  ∧ fs_after (fix_file_with rules q dry' (fs_after (fix_file_with rules p dry fs)))
    = fs_after (fix_file_with rules p dry (fs_after (fix_file_with rules q dry' fs))).
Proof.
  intros Hpq.
  assert (q ≠ p) as Hqp by congruence.
  pose proof (fix_file_with_frame rules p dry fs q Hqp) as Hq.
  pose proof (fix_file_with_frame rules q dry' fs p Hpq) as Hp.
  destruct (fix_file_with_local rules q dry' _ _ Hq) as (Hrq & _ & Hfq).
  destruct (fix_file_with_local rules p dry _ _ Hp) as (_ & _ & Hfp).
  split; [exact Hrq|].
  apply map_eq. intros k.
  destruct (decide (k = q)) as [->|Hkq].
  - rewrite Hfq. symmetry. by apply fix_file_with_frame.
  - rewrite (fix_file_with_frame rules q dry' _ k Hkq).
    destruct (decide (k = p)) as [->|Hkp].
    + symmetry. exact Hfp.
    + rewrite !(fix_file_with_frame rules p dry _ k Hkp).
      by rewrite (fix_file_with_frame rules q dry' _ k Hkq).
Qed.

(** ** The loop of [main], as a whole *)

(** The loop never raises; it counts a file at most once and at least
    one replacement for each file it counts. *)
Lemma process_files_counts files :
  ∀ dry a b (fs : storage),
    ∃ fixed total,
      returned (process_files files dry a b fs) = Ok (fixed, total)
      ∧ (a ≤ fixed ≤ a + length files)%nat
      ∧ (b + (fixed - a) ≤ total)%nat.
Proof.
  induction files as [|p rest IH]; intros dry a b fs.
  - exists a, b. simpl. split; [reflexivity|lia].
  - destruct (fix_file_with_returns REPLACEMENTS p dry fs) as (changed & n & Hr).
    destruct (process_files_step p rest dry a b fs changed n Hr) as [_ ->].
    destruct (IH dry (if changed then a + 1 else a)%nat
                (if changed then b + n else b)%nat
                (fs_after (fix_file p dry fs))) as (fixed & total & -> & H1 & H2).
    exists fixed, total. split; [reflexivity|].
    destruct changed.
    + apply fix_file_with_changed in Hr. simpl. lia.
    + simpl. lia.
Qed.

Lemma process_files_dry files :
  ∀ a b (fs : storage), fs_after (process_files files true a b fs) = fs.
Proof.
  induction files as [|p rest IH]; intros a b fs; [reflexivity|].
  destruct (fix_file_with_returns REPLACEMENTS p true fs) as (changed & n & Hr).
  destruct (process_files_step p rest true a b fs changed n Hr) as [-> _].
  rewrite IH. apply fix_file_with_dry.
Qed.

Lemma process_files_perm (l l' : list string) :
  l ≡ₚ l' →
  ∀ dry a b (fs : storage),
    returned (process_files l dry a b fs) = returned (process_files l' dry a b fs)
    ∧ fs_after (process_files l dry a b fs) = fs_after (process_files l' dry a b fs).
Proof.
  induction 1 as [|p l l' _ IH|p q l|l l' l'' _ IH1 _ IH2]; intros dry a b fs.
  - split; reflexivity.
  - destruct (fix_file_with_returns REPLACEMENTS p dry fs) as (changed & n & Hr).
    destruct (process_files_step p l dry a b fs changed n Hr) as [-> ->].
    destruct (process_files_step p l' dry a b fs changed n Hr) as [-> ->].
    apply IH.
  - destruct (decide (p = q)) as [->|Hpq]; [split; reflexivity|].
    destruct (fix_file_with_returns REPLACEMENTS p dry fs) as (cp & np & Hp).
    destruct (fix_file_with_returns REPLACEMENTS q dry fs) as (cq & nq & Hq).
    destruct (fix_file_with_swap REPLACEMENTS p q dry dry fs Hpq) as [Hq' Hfs].
    destruct (fix_file_with_swap REPLACEMENTS q p dry dry fs) as [Hp' _];
      [congruence|].
    change (fix_file_with REPLACEMENTS) with fix_file in *.
    rewrite Hq in Hq'. rewrite Hp in Hp'.
    destruct (process_files_step q (p :: l) dry a b fs cq nq Hq) as [-> ->].
    destruct (process_files_step p l dry (if cq then a + 1 else a)%nat
                (if cq then b + nq else b)%nat _ cp np Hp') as [-> ->].
    destruct (process_files_step p (q :: l) dry a b fs cp np Hp) as [-> ->].
    destruct (process_files_step q l dry (if cp then a + 1 else a)%nat
                (if cp then b + np else b)%nat _ cq nq Hq') as [-> ->].
    rewrite Hfs.
    replace (if cp then (if cq then a + 1 else a) + 1 else if cq then a + 1 else a)%nat
      with (if cq then (if cp then a + 1 else a) + 1 else if cp then a + 1 else a)%nat
      by (destruct cp, cq; lia).
    replace (if cp then (if cq then b + nq else b) + np else if cq then b + nq else b)%nat
      with (if cq then (if cp then b + np else b) + nq else if cp then b + np else b)%nat
      by (destruct cp, cq; lia).
    split; reflexivity.
  - destruct (IH1 dry a b fs) as [-> ->]. apply IH2.
Qed.

(** ** [main] *)

Section Bind.

Context {A B : Type}.
Implicit Types (m : IO A) (k : A → IO B) (fs : storage).

Lemma bind_fs_after m k fs :
  fs_after ((m ≫= k) fs)
  = match returned (m fs) with
    | Ok a => fs_after (k a (fs_after (m fs)))
    | Raise _ => fs_after (m fs)
    end.
Proof. unfold mbind, io_bind, Fs.bind. by destruct (returned (m fs)). Qed.

Lemma bind_returned m k fs :
  returned ((m ≫= k) fs)
  = match returned (m fs) with
    | Ok a => returned (k a (fs_after (m fs)))
    | Raise e => Raise e
    end.
Proof. unfold mbind, io_bind, Fs.bind. by destruct (returned (m fs)). Qed.

End Bind.

Lemma print_then_fs_after {B} line (k : IO B) (fs : storage) :
  fs_after ((print line;; k) fs) = fs_after (k fs).
Proof. by rewrite bind_fs_after. Qed.

Lemma print_then_returned {B} line (k : IO B) (fs : storage) :
  returned ((print line;; k) fs) = returned (k fs).
Proof. by rewrite bind_returned. Qed.

(** With a [docs] directory, [main] leaves the storage that its loop
    over the sorted files leaves, and returns 0. *)
Lemma main_with_docs argv md (fs : storage) :
  let dry_run := bool_decide ("--dry-run" ∈ argv) || bool_decide ("-n" ∈ argv) in
  fs_after (main argv (Some md) fs)
  = fs_after (process_files (sorted md) dry_run 0 0 fs)
  ∧ returned (main argv (Some md) fs) = Ok 0.
Proof.
  intros dry_run. unfold main. fold dry_run.
  destruct (process_files_counts (sorted md) dry_run 0 0 fs)
    as (fixed & total & Hr & _).
  rewrite print_then_fs_after, print_then_returned.
  rewrite bind_fs_after, bind_returned.
  assert (∀ (g : storage),
            fs_after ((if dry_run
                       then print ("Running in DRY RUN mode (no changes will be made)" +:+ nl)
                       else print ("Running in LIVE mode (files will be modified)" +:+ nl)) g) = g
            ∧ returned ((if dry_run
                         then print ("Running in DRY RUN mode (no changes will be made)" +:+ nl)
                         else print ("Running in LIVE mode (files will be modified)" +:+ nl)) g)
              = Ok ()) as Hmode.
  { intros g. by destruct dry_run. }
  destruct (Hmode fs) as [-> ->].
  rewrite print_then_fs_after, print_then_returned.
  rewrite bind_fs_after, bind_returned, Hr.
  rewrite !print_then_fs_after, !print_then_returned.
  rewrite bind_fs_after, bind_returned.
  destruct dry_run, (Nat.ltb 0 fixed); cbn [andb]; split; reflexivity.
Qed.

Lemma main_without_docs argv (fs : storage) :
  fs_after (main argv None fs) = fs ∧ returned (main argv None fs) = Ok 1.
Proof.
  unfold main.
  rewrite print_then_fs_after, print_then_returned.
  rewrite bind_fs_after, bind_returned.
  destruct (bool_decide ("--dry-run" ∈ argv) || bool_decide ("-n" ∈ argv));
    split; reflexivity.
Qed.

Lemma text_eqb_cons (x : char) (a b : text) :
  Text.eqb (x :: a) (x :: b) = Text.eqb a b.
Proof. simpl. by rewrite N.eqb_refl. Qed.

(** Rules blind to [x] work behind a leading [x] as without it. *)
Lemma apply_rules_cons_blind (rules : list rule) (x : char) (t : text) :
  forallb (fun r => blind_to x (pattern r)) rules = true →
  content_after rules (x :: t) = x :: content_after rules t
  ∧ count_after rules (x :: t) = count_after rules t
  ∧ report_of rules (x :: t) = report_of rules t.
Proof.
  intros H. unfold content_after, count_after, report_of, apply_rules.
  pose proof (apply_rules_blind x rules H t 0 []) as E.
  destruct (fold_left apply_rule rules (t, 0, [])) as [[c n] out].
  rewrite E. repeat split; reflexivity.
Qed.

(** * Further properties, one by one *)

(** X1: a text without a question mark is left alone: in either mode
    the Text Fixer prints nothing, writes nothing and returns
    [(false, 0)]. *)
Theorem text_without_question_mark_untouched (fs : storage) p t dry :
  ch "?" ∉ t →
  fix_file p dry (with_file fs p t) = Run (with_file fs p t) [] (Ok (false, 0)).
Proof.
  intros H. unfold fix_file. rewrite fix_file_with_file.
  unfold content_after, count_after, report_of, apply_rules.
  rewrite (apply_rules_without (ch "?") REPLACEMENTS t
             REPLACEMENTS_need_question_mark H).
  cbn [fst snd]. rewrite text_eqb_refl. reflexivity.
Qed.

Lemma text_without_question_mark_untouched_witness :
  fix_file "docs/readme.md" false
    (with_file ∅ "docs/readme.md" (of_string "# Title - no marks here!"))
  = Run (with_file ∅ "docs/readme.md" (of_string "# Title - no marks here!"))
      [] (Ok (false, 0)).
Proof.
  apply (text_without_question_mark_untouched ∅ "docs/readme.md"
           (of_string "# Title - no marks here!") false).
  apply (bool_decide_unpack _). vm_compute. exact I.
Defined.

(** X2: [fix_file] opens the file for writing only in a live run on a
    text that the rules change.  In a dry run, when reading or decoding
    raises, and when the rules leave the text as it is, the storage
    stays exactly as it was; when the write of a live run succeeds,
    [(true, count)] is returned and the one file holds the byte-order
    mark and the new text.  (A write that fails is the case of C9;
    nothing is said here of what it leaves in the file.) *)
Theorem fix_file_writes_only_changed_text (fs : storage) p dry :
  (dry = true
   ∨ (∃ e, returned (read_text p fs) = Raise e)
   ∨ (∃ t, returned (read_text p fs) = Ok t
           ∧ content_after REPLACEMENTS t = t) →
   fs_after (fix_file p dry fs) = fs)
  ∧ (∀ t, returned (read_text p fs) = Ok t →
          dry = false →
          content_after REPLACEMENTS t ≠ t →
          returned (write_text p (content_after REPLACEMENTS t) fs) = Ok () →
          returned (fix_file p dry fs) = Ok (true, count_after REPLACEMENTS t)
          ∧ fs_after (fix_file p dry fs)
            = <[p := File (Ok (BOM :: content_after REPLACEMENTS t)) None]> fs).
Proof.
  unfold fix_file. generalize REPLACEMENTS. intros rules.
  rewrite fix_file_with_run. unfold read_text, write_text.
  destruct (fs !! p) as [f|]; cbn [mbind option_bind returned].
  - destruct (read_as f) as [c|e]; cbv zeta.
    + split.
      * intros [->|[[e [=]]|(t & [= <-] & Hc)]].
        -- destruct (Text.eqb _ c); reflexivity.
        -- apply text_eqb_eq in Hc. rewrite Hc. reflexivity.
      * intros t [= <-] -> Hne Hw. apply text_eqb_neq in Hne. rewrite Hne.
        destruct (write_err f); [discriminate|]. split; reflexivity.
    + split.
      * intros _. reflexivity.
      * intros t [=].
  - split.
    + intros _. reflexivity.
    + intros t [=].
Qed.

(** X2 at a file that the rules change, in a live run. *)
Lemma fix_file_writes_only_changed_text_witness :
  let p := "docs/a.md" in
  let t := of_string "? **Teaches**" in
  let fs := with_file ∅ p t in
  returned (fix_file p false fs) = Ok (true, count_after REPLACEMENTS t)
  ∧ fs_after (fix_file p false fs)
    = <[p := File (Ok (BOM :: content_after REPLACEMENTS t)) None]> fs.
Proof.
  intros p t fs.
  destruct (fix_file_writes_only_changed_text fs p false) as [_ H].
  apply (H t).
  - vm_compute. reflexivity.
  - reflexivity.
  - apply text_eqb_neq. vm_compute. reflexivity.
  - vm_compute. reflexivity.
Defined.

(** X3: the lines [fix_file] prints for a file are one line per rule
    with at least one match, in table order, with the rule's description
    and its number of matches in the text current at its turn. *)
Theorem report_lists_matching_rules (fs : storage) p t dry :
  stdout (fix_file p dry (with_file fs p t))
  = omap (fun rn => if Nat.ltb 0 rn.2
                    then Some (report_line rn.1 rn.2) else None)
      (zip REPLACEMENTS (match_counts REPLACEMENTS t)).
Proof.
  unfold fix_file. generalize REPLACEMENTS. intros rules.
  rewrite fix_file_with_file. cbv zeta.
  assert (report_of rules t
          = omap (fun rn => if Nat.ltb 0 rn.2
                            then Some (report_line rn.1 rn.2) else None)
              (zip rules (match_counts rules t))) as <-.
  { unfold report_of, apply_rules. by rewrite fold_apply_rule_report. }
  destruct (Text.eqb _ t); [|destruct dry]; reflexivity.
Qed.

(** X4: a byte-order mark in front of the text does not change what the
    rules do: the mark stays in front, and the pair returned and the
    lines printed are those for the text without it. *)
Theorem leading_BOM_is_transparent (fs : storage) p t dry :
  content_after REPLACEMENTS (BOM :: t) = BOM :: content_after REPLACEMENTS t
  ∧ returned (fix_file p dry (with_file fs p (BOM :: t)))
    = returned (fix_file p dry (with_file fs p t))
  ∧ stdout (fix_file p dry (with_file fs p (BOM :: t)))
    = stdout (fix_file p dry (with_file fs p t)).
Proof.
  destruct (apply_rules_cons_blind REPLACEMENTS BOM t REPLACEMENTS_blind_to_BOM)
    as (Hc & Hn & Hout).
  split; [exact Hc|].
  unfold fix_file. rewrite !fix_file_with_file. cbv zeta.
  rewrite Hc, Hn, Hout, text_eqb_cons.
  destruct (Text.eqb _ t); [|destruct dry]; split; reflexivity.
Qed.

(** X5: two live runs in a row on a file of text [t].  The file is read
    without stripping the mark that the first run wrote and is written
    with a mark again: when both runs change the text, the file ends
    with two byte-order marks in front. *)
Theorem second_live_run_adds_a_BOM (fs : storage) p t :
  fs_after (fix_file p false (fs_after (fix_file p false (with_file fs p t)))) !! p
  = Some (File (Ok (let c1 := content_after REPLACEMENTS t in
                    let c2 := content_after REPLACEMENTS c1 in
                    if Text.eqb c1 t then t
                    else if Text.eqb c2 c1 then BOM :: c1
                    else BOM :: BOM :: c2)) None).
Proof.
  cbv zeta.
  destruct (apply_rules_cons_blind REPLACEMENTS BOM
              (content_after REPLACEMENTS t) REPLACEMENTS_blind_to_BOM)
    as (Hc & _ & _).
  unfold fix_file. rewrite fix_file_with_file. cbv zeta.
  destruct (Text.eqb (content_after REPLACEMENTS t) t) eqn:E1; cbn [fs_after].
  - rewrite fix_file_with_file. cbv zeta. rewrite E1. cbn [fs_after].
    apply lookup_insert_eq.
  - rewrite fix_file_with_file. cbv zeta. rewrite Hc, text_eqb_cons.
    destruct (Text.eqb _ (content_after REPLACEMENTS t)); cbn [fs_after];
      apply lookup_insert_eq.
Qed.

(** X6: the loop of [main] never raises, whatever the files; starting
    from zero it counts at most as many fixed files as it was given
    files, and at least one replacement for every file it counts as
    fixed. *)
Theorem summary_counters_bounded files dry (fs : storage) :
  ∃ fixed total,
    returned (process_files files dry 0 0 fs) = Ok (fixed, total)
    ∧ (fixed ≤ length files)%nat
    ∧ (fixed ≤ total)%nat.
Proof.
  destruct (process_files_counts files dry 0 0 fs) as (fixed & total & H & ? & ?).
  exists fixed, total. split; [exact H|]. lia.
Qed.

(** X7: the order in which the files are processed changes neither the
    two counters nor the storage left behind. *)
Theorem loop_is_order_independent (l l' : list string) dry a b (fs : storage) :
  l ≡ₚ l' →
  returned (process_files l dry a b fs) = returned (process_files l' dry a b fs)
  ∧ fs_after (process_files l dry a b fs) = fs_after (process_files l' dry a b fs).
Proof. intros H. by apply process_files_perm. Qed.

Lemma loop_is_order_independent_witness :
  let fs := with_file (with_file ∅ "docs/a.md" (of_string "? **Teaches**"))
              "docs/b.md" (of_string "- ? Partial") in
  returned (process_files ["docs/b.md"; "docs/a.md"] false 0 0 fs)
  = returned (process_files ["docs/a.md"; "docs/b.md"] false 0 0 fs)
  ∧ fs_after (process_files ["docs/b.md"; "docs/a.md"] false 0 0 fs)
    = fs_after (process_files ["docs/a.md"; "docs/b.md"] false 0 0 fs).
Proof.
  intros fs.
  apply (loop_is_order_independent ["docs/b.md"; "docs/a.md"]
           ["docs/a.md"; "docs/b.md"] false 0 0 fs).
  apply perm_swap.
Defined.

(** X8: [main] leaves alone every file that the search below [docs] did
    not yield. *)
Theorem main_touches_found_files_only argv docs (fs : storage) q :
  (∀ md_files, docs = Some md_files → q ∉ md_files) →
  fs_after (main argv docs fs) !! q = fs !! q.
Proof.
  intros H. destruct docs as [md|].
  - destruct (main_with_docs argv md fs) as [-> _].
    apply process_files_frame. unfold sorted.
    rewrite merge_sort_Permutation. by apply H.
  - by destruct (main_without_docs argv fs) as [-> _].
Qed.

Lemma main_touches_found_files_only_witness :
  let fs := with_file (with_file ∅ "docs/a.md" (of_string "? **Teaches**"))
              "notes/b.md" (of_string "? **Teaches**") in
  fs_after (main ["fix_markdown_encoding.py"] (Some ["docs/a.md"]) fs)
    !! "notes/b.md"
  = fs !! "notes/b.md".
Proof.
  intros fs.
  apply (main_touches_found_files_only ["fix_markdown_encoding.py"]
           (Some ["docs/a.md"]) fs "notes/b.md").
  intros md [= <-]. apply (bool_decide_unpack _). vm_compute. exact I.
Defined.

(** X9: [main] raises nothing and returns the exit status 1 exactly when
    [docs] does not exist, in which case the storage is untouched; with
    [docs] it returns 0, also when files could not be read or written. *)
Theorem main_exit_status argv docs (fs : storage) :
  returned (main argv docs fs)
  = Ok (match docs with Some _ => 0 | None => 1 end)
  ∧ fs_after (main argv None fs) = fs.
Proof.
  split.
  - destruct docs as [md|].
    + by destruct (main_with_docs argv md fs) as [_ ->].
    + by destruct (main_without_docs argv fs) as [_ ->].
  - by destruct (main_without_docs argv fs) as [-> _].
Qed.

(** X10: with [--dry-run] or [-n] anywhere on the command line, [main]
    leaves the whole storage as it was. *)
Theorem main_dry_run_flag argv docs (fs : storage) :
  "--dry-run" ∈ argv ∨ "-n" ∈ argv →
  fs_after (main argv docs fs) = fs.
Proof.
  intros H. destruct docs as [md|].
  - destruct (main_with_docs argv md fs) as [-> _].
    assert (bool_decide ("--dry-run" ∈ argv) || bool_decide ("-n" ∈ argv) = true)
      as ->.
    { apply orb_true_iff. destruct H as [H|H]; [left|right];
        by apply bool_decide_eq_true. }
    apply process_files_dry.
  - by destruct (main_without_docs argv fs) as [-> _].
Qed.

Lemma main_dry_run_flag_witness :
  let fs := with_file ∅ "docs/a.md" (of_string "? **Teaches**") in
  fs_after (main ["fix_markdown_encoding.py"; "-n"] (Some ["docs/a.md"]) fs) = fs.
Proof.
  intros fs.
  apply (main_dry_run_flag ["fix_markdown_encoding.py"; "-n"]
           (Some ["docs/a.md"]) fs).
  right. apply (bool_decide_unpack _). vm_compute. exact I.
Defined.

(** X11: the storage that [main] leaves does not depend on the order in
    which the search below [docs] yields the files. *)
Theorem main_is_search_order_independent argv (md md' : list string)
  (fs : storage) :
  md ≡ₚ md' →
  fs_after (main argv (Some md) fs) = fs_after (main argv (Some md') fs).
Proof.
  intros H.
  destruct (main_with_docs argv md fs) as [-> _].
  destruct (main_with_docs argv md' fs) as [-> _].
  apply process_files_perm. unfold sorted.
  by rewrite !merge_sort_Permutation.
Qed.

Lemma main_is_search_order_independent_witness :
  let fs := with_file (with_file ∅ "docs/a.md" (of_string "? **Teaches**"))
              "docs/b.md" (of_string "- ? Partial") in
  fs_after (main ["fix_markdown_encoding.py"] (Some ["docs/b.md"; "docs/a.md"]) fs)
  = fs_after (main ["fix_markdown_encoding.py"] (Some ["docs/a.md"; "docs/b.md"]) fs).
Proof.
  intros fs.
  apply (main_is_search_order_independent ["fix_markdown_encoding.py"]
           ["docs/b.md"; "docs/a.md"] ["docs/a.md"; "docs/b.md"] fs).
  apply perm_swap.
Defined.
